(** * Producer / consumer hand-off through a shared queue (main.py)

    The script builds one unbounded [queue.Queue], runs [producer] on a
    thread of its own, joins it, then runs [consumer] on a second thread and
    joins that one too.  The development below embeds the script as a small
    interleaving semantics: every thread has a program counter, a schedule
    (a list of thread identifiers) decides who moves next, and a move that
    the thread cannot make (a blocked [join], [put] or [get]) makes the
    schedule infeasible.  All statements quantify over every feasible
    schedule. *)

From Stdlib Require Import List ZArith Bool Lia String DecimalString.
From Stdlib Require DecimalPos DecimalZ.
Import ListNotations.
Open Scope Z_scope.

(** ** The queue (queue.Queue of the Python library)

    [Queue(maxsize=0)]: a bound [maxsize <= 0] means unbounded.  [put] and
    [get] are the blocking calls ([block=True], no timeout); a call that
    would wait on the condition variable is [None] here, so the calling
    thread has no move until the queue changes.  Each call holds the queue's
    mutex for its whole body, hence one atomic move. *)
Module Queue.

Record t : Type := mk { maxsize : Z; items : list Z }.

(** [Queue()] *)
Definition new : t := {| maxsize := 0; items := [] |}.

(** [_qsize]: [len(self.queue)] *)
Definition qsize (q : t) : Z := Z.of_nat (List.length (items q)).

(** [empty]: [not self._qsize()] *)
Definition empty (q : t) : bool := qsize q =? 0.

(** [put]: waits while [maxsize > 0 and _qsize() >= maxsize], then appends
    at the tail. *)
Definition put (q : t) (x : Z) : option t :=
  if (0 <? maxsize q) && (maxsize q <=? qsize q) then None
  else Some {| maxsize := maxsize q; items := items q ++ [x] |}.

(** [get]: waits while [not _qsize()], then [popleft]. *)
Definition get (q : t) : option (Z * t) :=
  match items q with
  | [] => None
  | x :: rest => Some (x, {| maxsize := maxsize q; items := rest |})
  end.

End Queue.

(** ** Threads, program counters and the shared state *)

Inductive tid : Type := Main | Producer | Consumer.

(** Lifecycle of a [threading.Thread] whose target has program counters
    in [pc]. *)
Inductive status (pc : Type) : Type :=
| NotStarted
| Running (at_pc : pc)
| Finished.
Arguments NotStarted {pc}.
Arguments Running {pc} at_pc.
Arguments Finished {pc}.

(** [producer]: [PFor i] asks [range(5)] for its next value, the iterator
    standing at [i]; [PPut i] is line 9 and [PPrint i] line 10. *)
Inductive producer_pc : Type :=
| PFor (i : Z)
| PPut (i : Z)
| PPrint (i : Z).

(** [consumer]: [CWhile] evaluates [not queue.empty()], [CGet] is line 15
    and [CPrint item] line 16. *)
Inductive consumer_pc : Type :=
| CWhile
| CGet
| CPrint (item : Z).

(** The module body from line 22 on; [MRaised] is the [RuntimeError] that
    [start] raises on a thread already started and [join] on one that never
    was. *)
Inductive main_pc : Type :=
| MStartProducer
| MJoinProducer
| MStartConsumer
| MJoinConsumer
| MDone
| MRaised.

Record state : Type := mkState {
  mpc : main_pc;
  ppc : status producer_pc;
  cpc : status consumer_pc;
  queue : Queue.t;
  stdout : list string
}.

(** What a move does, as seen from outside. *)
Inductive event : Type :=
| EStart (t : tid)
| EJoin (t : tid)
| ERaise
| ENext (v : option Z)
| EPut (x : Z)
| EEmpty (b : bool)
| EGet (x : Z)
| EPrint (line : string).

Definition trace : Type := list (tid * event).

(** [str(i)] for an integer. *)
Definition str (i : Z) : string := NilZero.string_of_int (Z.to_int i).

(** [print(line)]: one more line on standard output.  Standard output is
    kept as the list of lines written so far.  [print] writes the text and
    then the line end; taking the two writes as one move is right as long
    as one thread prints at a time, which is so in every state where
    [two_at_once] below is [false]: those the script reaches are of that
    kind. *)
Definition print (line : string) (out : list string) : list string :=
  out ++ [line].

(** State at line 22: the queue of line 4, two threads created (lines 19
    and 20) and not started. *)
Definition init : state :=
  {| mpc := MStartProducer; ppc := NotStarted; cpc := NotStarted;
     queue := Queue.new; stdout := [] |}.

(** ** One move of each thread *)

(** [producer], lines 7 to 10. *)
Definition producer (s : state) : option (event * state) :=
  match ppc s with
  | Running (PFor i) =>
      if i <? 5
      then Some (ENext (Some i),
                 mkState (mpc s) (Running (PPut i)) (cpc s) (queue s) (stdout s))
      else Some (ENext None,
                 mkState (mpc s) Finished (cpc s) (queue s) (stdout s))
  | Running (PPut i) =>
      match Queue.put (queue s) i with
      | Some q =>
          Some (EPut i, mkState (mpc s) (Running (PPrint i)) (cpc s) q (stdout s))
      | None => None
      end
  | Running (PPrint i) =>
      let line := ("Produced: " ++ str i)%string in
      Some (EPrint line,
            mkState (mpc s) (Running (PFor (i + 1))) (cpc s) (queue s)
                    (print line (stdout s)))
  | NotStarted | Finished => None
  end.

(** [consumer], lines 13 to 16. *)
Definition consumer (s : state) : option (event * state) :=
  match cpc s with
  | Running CWhile =>
      let b := Queue.empty (queue s) in
      Some (EEmpty b,
            mkState (mpc s) (ppc s) (if negb b then Running CGet else Finished)
                    (queue s) (stdout s))
  | Running CGet =>
      match Queue.get (queue s) with
      | Some (item, q) =>
          Some (EGet item, mkState (mpc s) (ppc s) (Running (CPrint item)) q (stdout s))
      | None => None
      end
  | Running (CPrint item) =>
      let line := ("Consumed: " ++ str item)%string in
      Some (EPrint line,
            mkState (mpc s) (ppc s) (Running CWhile) (queue s)
                    (print line (stdout s)))
  | NotStarted | Finished => None
  end.

(** The module body, lines 22 to 26.  [join] has no move while its thread
    runs. *)
Definition main (s : state) : option (event * state) :=
  match mpc s with
  | MStartProducer =>
      match ppc s with
      | NotStarted =>
          Some (EStart Producer,
                mkState MJoinProducer (Running (PFor 0)) (cpc s) (queue s) (stdout s))
      | _ => Some (ERaise, mkState MRaised (ppc s) (cpc s) (queue s) (stdout s))
      end
  | MJoinProducer =>
      match ppc s with
      | Finished =>
          Some (EJoin Producer,
                mkState MStartConsumer (ppc s) (cpc s) (queue s) (stdout s))
      | Running _ => None
      | NotStarted => Some (ERaise, mkState MRaised (ppc s) (cpc s) (queue s) (stdout s))
      end
  | MStartConsumer =>
      match cpc s with
      | NotStarted =>
          Some (EStart Consumer,
                mkState MJoinConsumer (ppc s) (Running CWhile) (queue s) (stdout s))
      | _ => Some (ERaise, mkState MRaised (ppc s) (cpc s) (queue s) (stdout s))
      end
  | MJoinConsumer =>
      match cpc s with
      | Finished =>
          Some (EJoin Consumer, mkState MDone (ppc s) (cpc s) (queue s) (stdout s))
      | Running _ => None
      | NotStarted => Some (ERaise, mkState MRaised (ppc s) (cpc s) (queue s) (stdout s))
      end
  | MDone | MRaised => None
  end.

Definition thread_step (t : tid) (s : state) : option (event * state) :=
  match t with
  | Main => main s
  | Producer => producer s
  | Consumer => consumer s
  end.

(** ** Executions *)

(** [exec sch s] lets the threads move in the order [sch] says; it is
    [None] when some thread has no move at its turn. *)
Fixpoint exec (sch : list tid) (s : state) : option (trace * state) :=
  match sch with
  | [] => Some ([], s)
  | t :: sch' =>
      match thread_step t s with
      | None => None
      | Some (e, s1) =>
          match exec sch' s1 with
          | None => None
          | Some (tr, s2) => Some ((t, e) :: tr, s2)
          end
      end
  end.

Definition all_tids : list tid := [Main; Producer; Consumer].

Definition can_move (s : state) (t : tid) : bool :=
  match thread_step t s with Some _ => true | None => false end.

(** The threads that have a move in [s]. *)
Definition enabled (s : state) : list tid := filter (can_move s) all_tids.

(** Nothing can move any more: the run is over. *)
Definition halted (s : state) : bool :=
  match enabled s with [] => true | _ => false end.

(** ** What a trace shows *)

Definition puts (tr : trace) : list Z :=
  flat_map (fun te => match snd te with EPut x => [x] | _ => [] end) tr.

Definition gets (tr : trace) : list Z :=
  flat_map (fun te => match snd te with EGet x => [x] | _ => [] end) tr.

Definition tid_eqb (a b : tid) : bool :=
  match a, b with
  | Main, Main | Producer, Producer | Consumer, Consumer => true
  | _, _ => false
  end.

(** The lines thread [t] printed, oldest first. *)
Definition printed_by (t : tid) (tr : trace) : list string :=
  flat_map (fun te => match snd te with
                      | EPrint line => if tid_eqb (fst te) t then [line] else []
                      | _ => []
                      end) tr.

(** The moves of the two worker threads, in the order they happened. *)
Definition workers (sch : list tid) : list tid :=
  filter (fun t => negb (tid_eqb t Main)) sch.

Definition count (t : tid) (sch : list tid) : nat :=
  List.length (filter (tid_eqb t) sch).

(** ** The serial schedule *)

(** The schedule that always moves the first enabled thread, for at most
    [fuel] moves. *)
Fixpoint canon (fuel : nat) (s : state) : list tid :=
  match fuel with
  | O => []
  | S fuel' =>
      match enabled s with
      | [] => []
      | t :: _ =>
          match thread_step t s with
          | Some (_, s1) => t :: canon fuel' s1
          | None => []
          end
      end
  end.

(** From [s] on, never more than one thread can move, and within [fuel]
    moves none can. *)
Fixpoint solo_run (fuel : nat) (s : state) : bool :=
  match enabled s with
  | [] => true
  | [t] =>
      match fuel with
      | O => false
      | S fuel' =>
          match thread_step t s with
          | Some (_, s1) => solo_run fuel' s1
          | None => false
          end
      end
  | _ => false
  end.

(** Start the producer, let it run (sixteen moves), join it, start the
    consumer, let it run (sixteen moves), join it. *)
Definition serial_schedule : list tid :=
  Main :: repeat Producer 16 ++ [Main; Main] ++ repeat Consumer 16 ++ [Main].

Definition ten_lines : list string :=
  ["Produced: 0"; "Produced: 1"; "Produced: 2"; "Produced: 3"; "Produced: 4";
   "Consumed: 0"; "Consumed: 1"; "Consumed: 2"; "Consumed: 3"; "Consumed: 4"]%string.

(** State once the module body has run to its end. *)
Definition final : state :=
  {| mpc := MDone; ppc := Finished; cpc := Finished;
     queue := Queue.new; stdout := ten_lines |}.

(** The three moves of one round of [producer], and of [consumer]. *)
Definition produce_moves (i : Z) : trace :=
  [(Producer, ENext (Some i)); (Producer, EPut i);
   (Producer, EPrint ("Produced: " ++ str i)%string)].

Definition consume_moves (item : Z) : trace :=
  [(Consumer, EEmpty false); (Consumer, EGet item);
   (Consumer, EPrint ("Consumed: " ++ str item)%string)].

(** What the serial schedule does, move by move. *)
Definition serial_trace : trace :=
  [(Main, EStart Producer)]
  ++ flat_map produce_moves [0; 1; 2; 3; 4]
  ++ [(Producer, ENext None); (Main, EJoin Producer); (Main, EStart Consumer)]
  ++ flat_map consume_moves [0; 1; 2; 3; 4]
  ++ [(Consumer, EEmpty true); (Main, EJoin Consumer)].

(** ** Bookkeeping for runs from any state *)

(** Every line a trace prints, whoever printed it. *)
Definition printed (tr : trace) : list string :=
  flat_map (fun te => match snd te with EPrint line => [line] | _ => [] end) tr.

Definition produced_line (i : Z) : string := ("Produced: " ++ str i)%string.

Definition consumed_line (item : Z) : string := ("Consumed: " ++ str item)%string.

(** The value the producer has put and not yet reported (it stands at line
    10), and the value the consumer has got and not yet reported (it stands
    at line 16). *)
Definition producer_owes (s : state) : list Z :=
  match ppc s with Running (PPrint i) => [i] | _ => [] end.


(** The values [range(5)] still has to give when its iterator stands at
    [i]. *)
Definition remaining (i : Z) : list Z :=
  map (fun k => i + Z.of_nat k) (seq 0 (Z.to_nat (5 - i))).

(** An upper bound on the moves still to come. *)
Definition main_left (m : main_pc) : nat :=
  match m with
  | MStartProducer => 4
  | MJoinProducer => 3
  | MStartConsumer => 2
  | MJoinConsumer => 1
  | MDone | MRaised => 0
  end.

Definition rounds_left (i : Z) : nat := Z.to_nat (5 - i).

Definition producer_left (p : status producer_pc) : nat :=
  match p with
  | NotStarted => 16
  | Running (PFor i) => 3 * rounds_left i + 1
  | Running (PPut i) => 3 * rounds_left (i + 1) + 3
  | Running (PPrint i) => 3 * rounds_left (i + 1) + 2
  | Finished => 0
  end.

(** The puts the producer may still make. *)
Definition puts_left (p : status producer_pc) : nat :=
  match p with
  | NotStarted => 5
  | Running (PFor i) => rounds_left i
  | Running (PPut i) => S (rounds_left (i + 1))
  | Running (PPrint i) => rounds_left (i + 1)
  | Finished => 0
  end.

(** The consumer's moves when [n] values are or will be there to get. *)
Definition consumer_left (c : status consumer_pc) (n : nat) : nat :=
  match c with
  | NotStarted | Running CWhile => 3 * n + 1
  | Running CGet => 3 * n
  | Running (CPrint _) => 3 * n + 2
  | Finished => 0
  end.

Definition moves_left (s : state) : nat :=
  main_left (mpc s) + producer_left (ppc s)
  + consumer_left (cpc s) (List.length (Queue.items (queue s)) + puts_left (ppc s)).


(** The two worker threads are running together, or the main thread is
    about to start one while the other runs. *)
Definition two_at_once (s : state) : bool :=
  match ppc s, cpc s with
  | Running _, Running _ => true
  | Running _, NotStarted =>
      match mpc s with MStartConsumer => true | _ => false end
  | NotStarted, Running _ =>
      match mpc s with MStartProducer => true | _ => false end
  | _, _ => false
  end.

(** The script is over: the main thread has run to its end or raised, and
    no worker thread is running. *)
Definition ended (s : state) : bool :=
  match mpc s with MDone | MRaised => true | _ => false end
  && match ppc s with Running _ => false | _ => true end
  && match cpc s with Running _ => false | _ => true end.

(** * Lemmas *)

Lemma can_move_enabled (s : state) (t : tid) :
  can_move s t = true <-> In t (enabled s).
Proof.
  unfold enabled. rewrite filter_In. split.
  - intros H. split; [destruct t; simpl; tauto | exact H].
  - tauto.
Qed.

Lemma step_enabled (s s1 : state) (t : tid) (e : event) :
  thread_step t s = Some (e, s1) -> In t (enabled s).
Proof.
  intros H. apply can_move_enabled. unfold can_move. now rewrite H.
Qed.

Lemma exec_length (sch : list tid) :
  forall s tr s', exec sch s = Some (tr, s') -> List.length tr = List.length sch.
Proof.
  induction sch as [|t sch IH]; simpl; intros s tr s' H.
  - now inversion H.
  - destruct (thread_step t s) as [[e s1]|]; [|discriminate].
    destruct (exec sch s1) as [[tr1 s2]|] eqn:E; [|discriminate].
    inversion H; subst. simpl. f_equal. eauto.
Qed.

Lemma exec_app (a b : list tid) :
  forall s, exec (a ++ b) s =
            match exec a s with
            | None => None
            | Some (tr1, s1) =>
                match exec b s1 with
                | None => None
                | Some (tr2, s2) => Some (tr1 ++ tr2, s2)
                end
            end.
Proof.
  induction a as [|t a IH]; simpl; intros s.
  - now destruct (exec b s) as [[? ?]|].
  - destruct (thread_step t s) as [[e s1]|]; [|reflexivity].
    rewrite IH. destruct (exec a s1) as [[tr1 s2]|]; [|reflexivity].
    now destruct (exec b s2) as [[? ?]|].
Qed.

(** Where only one thread can ever move, a feasible schedule is an initial
    part of the one [canon] builds. *)
Lemma solo_prefix (fuel : nat) :
  forall s sch tr s',
    solo_run fuel s = true ->
    exec sch s = Some (tr, s') ->
    sch = firstn (List.length sch) (canon fuel s).
Proof.
  induction fuel as [|fuel IH]; intros s sch tr s' Hsolo Hexec.
  - destruct sch as [|t sch]; [reflexivity|]. simpl in Hexec.
    destruct (thread_step t s) as [[e s1]|] eqn:E; [|discriminate].
    apply step_enabled in E. simpl in Hsolo.
    destruct (enabled s) as [|t0 [|t1 l]]; [destruct E | discriminate | discriminate].
  - destruct sch as [|t sch]; [reflexivity|]. simpl in Hexec.
    destruct (thread_step t s) as [[e s1]|] eqn:E; [|discriminate].
    destruct (exec sch s1) as [[tr1 s2]|] eqn:E1; [|discriminate].
    pose proof (step_enabled _ _ _ _ E) as Hin. simpl in Hsolo. simpl.
    destruct (enabled s) as [|t0 [|t1 l]]; [destruct Hin | | discriminate].
    destruct Hin as [->|[]]. rewrite E in *. simpl. f_equal. eauto.
Qed.

Lemma solo_run_init : solo_run 40 init = true.
Proof. vm_compute. reflexivity. Qed.

Lemma canon_init : canon 40 init = serial_schedule.
Proof. vm_compute. reflexivity. Qed.

(** Every feasible schedule of the script is an initial part of the serial
    one. *)
Lemma exec_serial (sch : list tid) (tr : trace) (s : state) :
  exec sch init = Some (tr, s) ->
  exists k, (k <= 36)%nat /\ sch = firstn k serial_schedule.
Proof.
  intros H. pose proof (solo_prefix 40 _ _ _ _ solo_run_init H) as Hp.
  rewrite canon_init in Hp. exists (List.length sch). split; [|exact Hp].
  rewrite Hp at 1. rewrite length_firstn. change (List.length serial_schedule) with 36%nat. lia.
Qed.

(** A property of all feasible schedules follows from its instances at the
    initial parts of the serial schedule. *)
Lemma serial_ind (P : list tid -> trace -> state -> Prop) :
  (forall k, (k <= 36)%nat ->
             match exec (firstn k serial_schedule) init with
             | Some (tr, s) => P (firstn k serial_schedule) tr s
             | None => True
             end) ->
  forall sch tr s, exec sch init = Some (tr, s) -> P sch tr s.
Proof.
  intros HP sch tr s H. destruct (exec_serial _ _ _ H) as (k & Hk & ->).
  specialize (HP k Hk). now rewrite H in HP.
Qed.

Ltac each_prefix k tac :=
  do 37 (destruct k as [|k]; [tac|]); exfalso; lia.

(** Reduce a goal about the run [H : exec sch init = Some (tr, s)] to the
    thirty-seven initial parts of the serial schedule. *)
Ltac by_serial H tac :=
  match type of H with
  | exec ?sch init = Some (?tr, ?s) =>
      pattern sch, tr, s; eapply serial_ind; [|exact H];
      let k := fresh "k" in
      let Hk := fresh "Hk" in
      cbv beta; intros k Hk; each_prefix k tac
  end.

Ltac settle :=
  vm_compute; intros; repeat split; intros;
  try discriminate; try congruence; try reflexivity.

Lemma serial_run : exec serial_schedule init = Some (serial_trace, final).
Proof. vm_compute. reflexivity. Qed.

(** A run that has come to its end is the serial run. *)
Lemma complete_run (sch : list tid) (tr : trace) (s : state) :
  exec sch init = Some (tr, s) -> halted s = true ->
  sch = serial_schedule /\ tr = serial_trace /\ s = final.
Proof.
  intros H Hh. revert Hh. by_serial H settle.
Qed.

(** The trace of a feasible schedule is an initial part of the serial
    trace. *)
Lemma exec_serial_trace (sch : list tid) (tr : trace) (s : state) :
  exec sch init = Some (tr, s) ->
  tr = firstn (List.length sch) serial_trace.
Proof.
  intros H. by_serial H settle.
Qed.


(** ** Facts about single moves, for any state *)

Ltac step_cases H :=
  unfold thread_step, main, producer, consumer in H; simpl in H;
  repeat match type of H with
         | context [match ?x with _ => _ end] => destruct x eqn:?
         end;
  try discriminate; inversion H; subst; clear H.

Lemma put_items (q q' : Queue.t) (x : Z) :
  Queue.put q x = Some q' ->
  Queue.items q' = Queue.items q ++ [x] /\ Queue.maxsize q' = Queue.maxsize q.
Proof.
  unfold Queue.put. destruct (_ && _); [discriminate|].
  intros H. inversion H. simpl. split; reflexivity.
Qed.

Lemma get_items (q q' : Queue.t) (x : Z) :
  Queue.get q = Some (x, q') ->
  Queue.items q = x :: Queue.items q' /\ Queue.maxsize q' = Queue.maxsize q.
Proof.
  unfold Queue.get. destruct (Queue.items q) as [|y rest]; [discriminate|].
  intros H. inversion H. simpl. split; reflexivity.
Qed.

(** A queue without a bound takes every [put]. *)
Lemma put_unbounded (q : Queue.t) (x : Z) :
  Queue.maxsize q <= 0 ->
  Queue.put q x =
  Some {| Queue.maxsize := Queue.maxsize q; Queue.items := Queue.items q ++ [x] |}.
Proof.
  intros H. unfold Queue.put.
  destruct (0 <? Queue.maxsize q) eqn:E; [apply Z.ltb_lt in E; lia | reflexivity].
Qed.

Lemma empty_items (q : Queue.t) :
  Queue.empty q = true <-> Queue.items q = [].
Proof.
  unfold Queue.empty, Queue.qsize. rewrite Z.eqb_eq.
  destruct (Queue.items q); simpl; split; intros H; try reflexivity; try discriminate; lia.
Qed.

(** One move keeps the books of the queue: what was in it and what the move
    put are what the move got and what is in it now. *)
Lemma step_fifo (t : tid) (s s1 : state) (e : event) :
  thread_step t s = Some (e, s1) ->
  Queue.items (queue s) ++ puts [(t, e)] = gets [(t, e)] ++ Queue.items (queue s1).
Proof.
  intros H. destruct s as [m p c q out]. destruct t; step_cases H;
    cbn [puts gets flat_map snd fst queue app]; rewrite ?app_nil_r; try reflexivity.
  - match goal with E : Queue.put _ _ = Some _ |- _ => apply put_items in E; destruct E as [-> _] end.
    reflexivity.
  - match goal with E : Queue.get _ = Some _ |- _ => apply get_items in E; destruct E as [-> _] end.
    reflexivity.
Qed.

Lemma step_maxsize (t : tid) (s s1 : state) (e : event) :
  thread_step t s = Some (e, s1) ->
  Queue.maxsize (queue s1) = Queue.maxsize (queue s).
Proof.
  intros H. destruct s as [m p c q out]. destruct t; step_cases H;
    cbn [queue]; try reflexivity.
  - match goal with E : Queue.put _ _ = Some _ |- _ => apply put_items in E; tauto end.
  - match goal with E : Queue.get _ = Some _ |- _ => apply get_items in E; tauto end.
Qed.

Lemma puts_app (a b : trace) : puts (a ++ b) = puts a ++ puts b.
Proof. apply flat_map_app. Qed.

Lemma gets_app (a b : trace) : gets (a ++ b) = gets a ++ gets b.
Proof. apply flat_map_app. Qed.

Lemma exec_fifo (sch : list tid) :
  forall s tr s',
    exec sch s = Some (tr, s') ->
    Queue.items (queue s) ++ puts tr = gets tr ++ Queue.items (queue s').
Proof.
  induction sch as [|t sch IH]; simpl; intros s tr s' H.
  - inversion H; subst. simpl. now rewrite app_nil_r.
  - destruct (thread_step t s) as [[e s1]|] eqn:E; [|discriminate].
    destruct (exec sch s1) as [[tr1 s2]|] eqn:E1; [|discriminate].
    inversion H; subst; clear H.
    change ((t, e) :: tr1) with ([(t, e)] ++ tr1).
    rewrite puts_app, gets_app, app_assoc, (step_fifo _ _ _ _ E).
    rewrite <- !app_assoc. f_equal. eauto.
Qed.

Lemma exec_maxsize (sch : list tid) :
  forall s tr s',
    exec sch s = Some (tr, s') ->
    Queue.maxsize (queue s') = Queue.maxsize (queue s).
Proof.
  induction sch as [|t sch IH]; simpl; intros s tr s' H.
  - now inversion H.
  - destruct (thread_step t s) as [[e s1]|] eqn:E; [|discriminate].
    destruct (exec sch s1) as [[tr1 s2]|] eqn:E1; [|discriminate].
    inversion H; subst; clear H.
    rewrite (IH _ _ _ E1). eapply step_maxsize; eauto.
Qed.

Lemma nth_error_firstn_Some {A : Type} (k n : nat) (l : list A) (x : A) :
  nth_error (firstn k l) n = Some x -> nth_error l n = Some x /\ (n < k)%nat.
Proof.
  rewrite nth_error_firstn. destruct (Nat.ltb_spec n k); [tauto | discriminate].
Qed.

Ltac disjuncts := repeat (first [left; reflexivity | right]).

(** * The claims *)

(** C1. Run with no arguments, the script writes ten lines and nothing
    else: "Produced: 0" to "Produced: 4", then "Consumed: 0" to
    "Consumed: 4".  The serial schedule is feasible and ends the run, and
    whatever feasible schedule ends the run, standard output is those ten
    lines. *)
Theorem program_output :
  exec serial_schedule init = Some (serial_trace, final) /\
  halted final = true /\
  forall sch tr s,
    exec sch init = Some (tr, s) -> halted s = true -> stdout s = ten_lines.
Proof.
  split; [exact serial_run|]. split; [reflexivity|].
  intros sch tr s H Hh. destruct (complete_run _ _ _ H Hh) as (_ & _ & ->).
  reflexivity.
Qed.

Lemma program_output_witness :
  exec serial_schedule init = Some (serial_trace, final) /\
  halted final = true /\
  stdout final = ten_lines.
Proof.
  split; [vm_compute; reflexivity|]. split; [vm_compute; reflexivity|].
  apply (proj2 (proj2 program_output) serial_schedule serial_trace final);
    vm_compute; reflexivity.
Defined.





(** C4. The consumer thread is started only after the producer thread has
    finished and been joined, and the main thread ends only after the
    consumer thread has finished and been joined.  The moves of the two
    threads are never interleaved: whatever the schedule, all moves of the
    producer come first and all moves of the consumer after them; the
    consumer has a move only when the producer is [Finished] and the
    producer only when the consumer is [NotStarted]. *)
Theorem phases_serialized (sch : list tid) (tr : trace) (s : state)
  (H : exec sch init = Some (tr, s)) :
  (cpc s <> NotStarted -> ppc s = Finished /\ In (Main, EJoin Producer) tr) /\
  (mpc s = MDone -> cpc s = Finished /\ In (Main, EJoin Consumer) tr) /\
  (can_move s Consumer = true -> ppc s = Finished) /\
  (can_move s Producer = true -> cpc s = NotStarted) /\
  mpc s <> MRaised /\
  workers sch =
    repeat Producer (count Producer sch) ++ repeat Consumer (count Consumer sch).
Proof.
  by_serial H ltac:(settle; disjuncts).
Qed.

Lemma phases_serialized_witness :
  (ppc final = Finished /\ In (Main, EJoin Producer) serial_trace) /\
  (cpc final = Finished /\ In (Main, EJoin Consumer) serial_trace) /\
  ppc (mkState MJoinConsumer Finished (Running CGet)
         (Queue.mk 0 [1; 2; 3; 4]) (firstn 6 ten_lines)) = Finished /\
  cpc (mkState MJoinProducer (Running (PPut 2)) NotStarted
         (Queue.mk 0 [0; 1]) (firstn 2 ten_lines)) = NotStarted /\
  workers serial_schedule = repeat Producer 16 ++ repeat Consumer 16.
Proof.
  assert (H : exec serial_schedule init = Some (serial_trace, final))
    by (vm_compute; reflexivity).
  split; [|split; [|split; [|split]]].
  - apply (proj1 (phases_serialized serial_schedule serial_trace final H)).
    vm_compute; discriminate.
  - apply (proj1 (proj2 (phases_serialized serial_schedule serial_trace final H))).
    vm_compute; reflexivity.
  - refine (proj1 (proj2 (proj2 (phases_serialized (firstn 23 serial_schedule)
                                   (firstn 23 serial_trace) _ _))) _);
      vm_compute; reflexivity.
  - refine (proj1 (proj2 (proj2 (proj2 (phases_serialized (firstn 8 serial_schedule)
                                          (firstn 8 serial_trace) _ _)))) _);
      vm_compute; reflexivity.
  - exact (proj2 (proj2 (proj2 (proj2 (proj2
             (phases_serialized serial_schedule serial_trace final H)))))).
Defined.

(** C5. The queue is first in, first out throughout the run: at every
    moment the values put so far are the values got so far, in the same
    order, followed by what the queue still holds; so the k-th value got is
    the k-th value put. *)
Theorem fifo_order (sch : list tid) (tr : trace) (s : state)
  (H : exec sch init = Some (tr, s)) :
  puts tr = gets tr ++ Queue.items (queue s) /\
  forall k x, nth_error (gets tr) k = Some x -> nth_error (puts tr) k = Some x.
Proof.
  pose proof (exec_fifo _ _ _ _ H) as E. simpl in E.
  split; [exact E|].
  intros k x Hk. rewrite E. rewrite nth_error_app1; [exact Hk|].
  apply nth_error_Some. congruence.
Qed.

Lemma fifo_order_witness :
  puts (firstn 24 serial_trace) = gets (firstn 24 serial_trace) ++ [2; 3; 4].
Proof.
  refine (proj1 (fifo_order (firstn 24 serial_schedule) (firstn 24 serial_trace)
                   (mkState MJoinConsumer Finished (Running (CPrint 1))
                      (Queue.mk 0 [2; 3; 4]) (firstn 6 ten_lines)) _)).
  vm_compute; reflexivity.
Defined.

(** C6. The script is deterministic.  At every moment of every run at most
    one thread has a move, so the scheduler has no choice to make; any two
    runs that reach the end took the same moves and wrote the same lines to
    standard output. *)
Theorem output_deterministic :
  (forall sch tr s,
      exec sch init = Some (tr, s) -> (List.length (enabled s) <= 1)%nat) /\
  (forall sch1 tr1 s1 sch2 tr2 s2,
      exec sch1 init = Some (tr1, s1) -> halted s1 = true ->
      exec sch2 init = Some (tr2, s2) -> halted s2 = true ->
      stdout s1 = stdout s2 /\ tr1 = tr2 /\ sch1 = sch2).
Proof.
  split.
  - intros sch tr s H. by_serial H ltac:(vm_compute; lia).
  - intros sch1 tr1 s1 sch2 tr2 s2 H1 Hh1 H2 Hh2.
    destruct (complete_run _ _ _ H1 Hh1) as (-> & -> & ->).
    destruct (complete_run _ _ _ H2 Hh2) as (-> & -> & ->).
    repeat split.
Qed.

Lemma output_deterministic_witness :
  (List.length (enabled final) <= 1)%nat /\ stdout final = stdout final.
Proof.
  split.
  - apply (proj1 output_deterministic serial_schedule serial_trace final).
    vm_compute; reflexivity.
  - apply (proj2 output_deterministic serial_schedule serial_trace final
             serial_schedule serial_trace final);
      vm_compute; reflexivity.
Defined.

(** C7. Once the consumer has finished, the queue holds nothing, and
    [empty] called on it then answers [True]. *)
Theorem queue_empty_after_consumer (sch : list tid) (tr : trace) (s : state)
  (H : exec sch init = Some (tr, s)) (Hc : cpc s = Finished) :
  Queue.items (queue s) = [] /\ Queue.empty (queue s) = true.
Proof.
  revert Hc. by_serial H settle.
Qed.

Lemma queue_empty_after_consumer_witness :
  Queue.items (queue final) = [] /\ Queue.empty (queue final) = true.
Proof.
  apply (queue_empty_after_consumer serial_schedule serial_trace final);
    vm_compute; reflexivity.
Defined.

(** C8. Both threads and the script come to an end.  No feasible schedule
    has more than thirty-six moves, and each can be carried on to the state
    in which the main thread is done and both threads are finished, where
    nothing can move.  The producer is finished only after exactly the five
    puts, the consumer only after exactly five gets; the consumer's loop
    ends at the first [empty] that answers [True] and goes on to [get]
    otherwise. *)
Theorem run_terminates :
  (forall sch tr s,
      exec sch init = Some (tr, s) ->
      (List.length sch <= 36)%nat /\
      (exists rest, exec (sch ++ rest) init = Some (serial_trace, final)) /\
      (ppc s = Finished -> puts tr = [0; 1; 2; 3; 4]) /\
      (cpc s = Finished -> List.length (gets tr) = 5%nat)) /\
  (halted final = true /\
   mpc final = MDone /\ ppc final = Finished /\ cpc final = Finished) /\
  (forall s e s1,
      cpc s = Running CWhile -> consumer s = Some (e, s1) ->
      e = EEmpty (Queue.empty (queue s)) /\
      cpc s1 = (if Queue.empty (queue s) then Finished else Running CGet)).
Proof.
  split; [|split].
  - intros sch tr s H. split; [|split].
    + destruct (exec_serial _ _ _ H) as (k & Hk & ->).
      rewrite length_firstn. lia.
    + destruct (exec_serial _ _ _ H) as (k & Hk & ->).
      exists (skipn k serial_schedule). rewrite firstn_skipn. exact serial_run.
    + by_serial H settle.
  - repeat split.
  - intros s e s1 Hc Hs. unfold consumer in Hs. rewrite Hc in Hs.
    inversion Hs; subst; clear Hs. simpl.
    split; [reflexivity|]. now destruct (Queue.empty (queue s)).
Qed.

Lemma run_terminates_witness :
  (List.length (firstn 20 serial_schedule) <= 36)%nat /\
  puts serial_trace = [0; 1; 2; 3; 4] /\
  cpc (mkState MJoinConsumer Finished Finished Queue.new ten_lines) = Finished.
Proof.
  split; [|split].
  - refine (proj1 (proj1 run_terminates (firstn 20 serial_schedule)
                     (firstn 20 serial_trace) _ _)).
    vm_compute; reflexivity.
  - refine (proj1 (proj2 (proj2 (proj1 run_terminates serial_schedule
                                   serial_trace final _))) _);
      vm_compute; reflexivity.
  - refine (proj2 (proj2 (proj2 run_terminates)
                     (mkState MJoinConsumer Finished (Running CWhile) Queue.new ten_lines)
                     _ _ _ _));
      vm_compute; reflexivity.
Defined.

(** C9. Putting into the queue always succeeds.  The queue keeps the bound
    0 it was created with, which means no bound, so at every moment of
    every run a [put] of any value goes through at once and appends the
    value; the producer, while it runs, always has a move, and the main
    thread never raises. *)
Theorem put_always_succeeds (sch : list tid) (tr : trace) (s : state)
  (H : exec sch init = Some (tr, s)) :
  Queue.maxsize (queue s) = 0 /\
  (forall x,
      Queue.put (queue s) x =
      Some {| Queue.maxsize := 0; Queue.items := Queue.items (queue s) ++ [x] |}) /\
  (forall pc, ppc s = Running pc -> exists e s1, producer s = Some (e, s1)) /\
  mpc s <> MRaised.
Proof.
  pose proof (exec_maxsize _ _ _ _ H) as Hm. simpl in Hm.
  assert (Hput : forall x,
             Queue.put (queue s) x =
             Some {| Queue.maxsize := 0; Queue.items := Queue.items (queue s) ++ [x] |}).
  { intros x. rewrite put_unbounded by lia. now rewrite Hm. }
  split; [exact Hm|]. split; [exact Hput|]. split.
  - intros pc Hp. unfold producer. rewrite Hp. destruct pc as [i|i|i].
    + destruct (i <? 5); eauto.
    + rewrite Hput. eauto.
    + eauto.
  - by_serial H settle.
Qed.

Lemma put_always_succeeds_witness :
  Queue.put (Queue.mk 0 [0; 1]) 7 = Some (Queue.mk 0 [0; 1; 7]).
Proof.
  refine (proj1 (proj2 (put_always_succeeds (firstn 7 serial_schedule)
                          (firstn 7 serial_trace)
                          (mkState MJoinProducer (Running (PFor 2)) NotStarted
                             (Queue.mk 0 [0; 1]) (firstn 2 ten_lines)) _)) 7).
  vm_compute; reflexivity.
Defined.

(** C10. Every [get] is the consumer's and follows at once an [empty] of
    the consumer that answered [False]; while the consumer runs it is the
    only thread with a move; so whenever the consumer stands at [get] the
    queue holds a value and [get] returns it without waiting.  Started on
    an empty queue, the consumer makes one move, the [empty] that answers
    [True], prints nothing and is finished. *)
Theorem get_never_waits :
  (forall sch tr s,
      exec sch init = Some (tr, s) ->
      (cpc s = Running CGet ->
       exists x q, Queue.get (queue s) = Some (x, q)) /\
      (forall pc, cpc s = Running pc -> enabled s = [Consumer]) /\
      (forall n t x,
          nth_error tr n = Some (t, EGet x) ->
          t = Consumer /\
          exists m, n = S m /\ nth_error tr m = Some (Consumer, EEmpty false))) /\
  (forall s,
      mpc s = MStartConsumer -> cpc s = NotStarted ->
      Queue.items (queue s) = [] ->
      exec [Main; Consumer; Main] s =
      Some ([(Main, EStart Consumer); (Consumer, EEmpty true); (Main, EJoin Consumer)],
            mkState MDone (ppc s) Finished (queue s) (stdout s))).
Proof.
  split.
  - intros sch tr s H. split; [|split].
    + by_serial H ltac:(settle; eauto).
    + by_serial H settle.
    + pose proof (exec_serial_trace _ _ _ H) as ->.
      intros n t x Hn. apply nth_error_firstn_Some in Hn. destruct Hn as [Hn Hlt].
      do 36 (destruct n as [|n];
             [cbn in Hn;
              first [ discriminate
                    | inversion Hn; subst;
                      split; [reflexivity|]; eexists; split; [reflexivity|];
                      rewrite nth_error_firstn;
                      match goal with
                      | |- (if ?b then _ else _) = _ =>
                          replace b with true by (symmetry; apply Nat.ltb_lt; lia)
                      end; reflexivity ]|]).
      destruct n; discriminate.
  - intros s Hm Hc Hq. destruct s as [m p c q out]. simpl in *. subst.
    apply empty_items in Hq. cbn. unfold consumer, main. cbn. rewrite Hq. reflexivity.
Qed.

Lemma get_never_waits_witness :
  (exists x q, Queue.get (Queue.mk 0 [3; 4]) = Some (x, q)) /\
  exec [Main; Consumer; Main]
       (mkState MStartConsumer Finished NotStarted Queue.new []) =
  Some ([(Main, EStart Consumer); (Consumer, EEmpty true); (Main, EJoin Consumer)],
        mkState MDone Finished Finished Queue.new []).
Proof.
  split.
  - refine (proj1 (proj1 get_never_waits (firstn 29 serial_schedule)
                     (firstn 29 serial_trace)
                     (mkState MJoinConsumer Finished (Running CGet)
                        (Queue.mk 0 [3; 4]) (firstn 8 ten_lines)) _) _);
      vm_compute; reflexivity.
  - refine (proj2 get_never_waits
              (mkState MStartConsumer Finished NotStarted Queue.new []) _ _ _);
      vm_compute; reflexivity.
Defined.

(** * Further properties of [producer], [consumer] and the module body,
      from any state *)

Lemma printed_app (a b : trace) : printed (a ++ b) = printed a ++ printed b.
Proof. apply flat_map_app. Qed.

Lemma printed_by_app (t : tid) (a b : trace) :
  printed_by t (a ++ b) = printed_by t a ++ printed_by t b.
Proof. apply flat_map_app. Qed.

(** Induction over a feasible schedule, one move at a time. *)
Lemma exec_ind (P : state -> list tid -> trace -> state -> Prop) :
  (forall s, P s [] [] s) ->
  (forall s t e s1 sch tr s2,
      thread_step t s = Some (e, s1) -> exec sch s1 = Some (tr, s2) ->
      P s1 sch tr s2 -> P s (t :: sch) ((t, e) :: tr) s2) ->
  forall sch s tr s', exec sch s = Some (tr, s') -> P s sch tr s'.
Proof.
  intros Hnil Hcons sch. induction sch as [|t sch IH]; simpl; intros s tr s' H.
  - inversion H; subst. apply Hnil.
  - destruct (thread_step t s) as [[e s1]|] eqn:E; [|discriminate].
    destruct (exec sch s1) as [[tr1 s2]|] eqn:E1; [|discriminate].
    inversion H; subst; clear H. eapply Hcons; eauto.
Qed.

Lemma step_two_at_once (t : tid) (s s1 : state) (e : event) :
  thread_step t s = Some (e, s1) -> two_at_once s = false -> two_at_once s1 = false.
Proof.
  intros H. destruct s as [m p c q out]. unfold two_at_once.
  destruct t; step_cases H; cbn [mpc ppc cpc];
    repeat match goal with
           | |- context [match ?x with _ => _ end] => is_var x; destruct x
           end;
    intros; try reflexivity; try discriminate; try assumption.
Qed.

(** X1. Where the two worker threads cannot run at the same time, as in
    every state the script reaches, they never will, whatever the
    schedule, and standard output only grows: after any moves it is what it
    was, followed by the lines the moves printed, in their order. *)
Theorem stdout_append_only (sch : list tid) (s : state) (tr : trace) (s' : state)
  (H : exec sch s = Some (tr, s')) (Hone : two_at_once s = false) :
  two_at_once s' = false /\ stdout s' = stdout s ++ printed tr.
Proof.
  revert sch s tr s' H Hone. apply (exec_ind (fun s sch tr s' =>
    two_at_once s = false ->
    two_at_once s' = false /\ stdout s' = stdout s ++ printed tr)).
  - intros s Hone. simpl. now rewrite app_nil_r.
  - intros s t e s1 sch tr s2 Hstep _ IH Hone.
    destruct (IH (step_two_at_once _ _ _ _ Hstep Hone)) as [Hone2 Hout].
    split; [exact Hone2|]. rewrite Hout.
    change ((t, e) :: tr) with ([(t, e)] ++ tr). rewrite printed_app, app_assoc.
    f_equal. destruct s as [m p c q out].
    destruct t; step_cases Hstep; cbn [stdout printed flat_map snd app print];
      rewrite ?app_nil_r; reflexivity.
Qed.

Lemma stdout_append_only_witness :
  two_at_once (mkState MJoinConsumer Finished (Running CWhile) (Queue.mk 0 [])
                 ["x"; "Consumed: 7"]%string) = false /\
  ["x"; "Consumed: 7"]%string =
  ["x"%string]
  ++ printed [(Main, EStart Consumer); (Consumer, EEmpty false); (Consumer, EGet 7);
              (Consumer, EPrint "Consumed: 7"%string)].
Proof.
  apply (stdout_append_only [Main; Consumer; Consumer; Consumer]
           (mkState MStartConsumer Finished NotStarted (Queue.mk 0 [7]) ["x"%string])
           [(Main, EStart Consumer); (Consumer, EEmpty false); (Consumer, EGet 7);
            (Consumer, EPrint "Consumed: 7"%string)]
           (mkState MJoinConsumer Finished (Running CWhile) (Queue.mk 0 [])
              ["x"; "Consumed: 7"]%string));
    vm_compute; reflexivity.
Defined.



(** X3. The producer reports exactly what it puts.  Along any moves from
    any state, the lines it prints, followed by the line it still owes at
    the end, are the "Produced" lines of the value it owed at the start and
    of the values put on the way, in that order. *)
Theorem producer_prints_what_it_puts
  (sch : list tid) (s : state) (tr : trace) (s' : state)
  (H : exec sch s = Some (tr, s')) :
  printed_by Producer tr ++ map produced_line (producer_owes s') =
  map produced_line (producer_owes s ++ puts tr).
Proof.
  revert sch s tr s' H. apply exec_ind.
  - intros s. simpl. now rewrite app_nil_r.
  - intros s t e s1 sch tr s2 Hstep _ IH.
    change ((t, e) :: tr) with ([(t, e)] ++ tr).
    rewrite printed_by_app, puts_app, <- app_assoc, IH, !map_app, !app_assoc.
    f_equal. destruct s as [m p c q out].
    destruct t; step_cases Hstep;
      cbn [producer_owes ppc printed_by puts flat_map snd fst tid_eqb map app];
      rewrite ?app_nil_r; reflexivity.
Qed.

Lemma producer_prints_what_it_puts_witness :
  printed_by Producer
    [(Producer, EPrint "Produced: 2"%string); (Producer, ENext (Some 3));
     (Producer, EPut 3)]
  ++ map produced_line [3] = map produced_line ([2] ++ [3]).
Proof.
  apply (producer_prints_what_it_puts [Producer; Producer; Producer]
           (mkState MJoinProducer (Running (PPrint 2)) NotStarted
              (Queue.mk 0 [0; 1; 2]) [])
           [(Producer, EPrint "Produced: 2"%string); (Producer, ENext (Some 3));
            (Producer, EPut 3)]
           (mkState MJoinProducer (Running (PPrint 3)) NotStarted
                (Queue.mk 0 [0; 1; 2; 3]) ["Produced: 2"%string])).
  vm_compute; reflexivity.
Defined.

(** X4. A thread that has finished stays finished and makes no further
    move: a schedule from a state where the producer (the consumer) is
    [Finished] is feasible only if it gives that thread no turn. *)
Theorem finished_threads_stay_finished
  (sch : list tid) (s : state) (tr : trace) (s' : state)
  (H : exec sch s = Some (tr, s')) :
  (ppc s = Finished -> ppc s' = Finished /\ ~ In Producer sch) /\
  (cpc s = Finished -> cpc s' = Finished /\ ~ In Consumer sch).
Proof.
  revert sch s tr s' H. apply exec_ind.
  - intros s. simpl. tauto.
  - intros s t e s1 sch tr s2 Hstep _ [IHp IHc].
    destruct s as [m p c q out]. simpl in *. split; intros ->.
    + assert (Hp : ppc s1 = Finished /\ t <> Producer)
        by (destruct t; step_cases Hstep; simpl; split; congruence).
      destruct Hp as [Hp Ht]. destruct (IHp Hp) as [? ?].
      split; [assumption|]. intros [?|?]; [congruence | contradiction].
    + assert (Hc : cpc s1 = Finished /\ t <> Consumer)
        by (destruct t; step_cases Hstep; simpl; split; congruence).
      destruct Hc as [Hc Ht]. destruct (IHc Hc) as [? ?].
      split; [assumption|]. intros [?|?]; [congruence | contradiction].
Qed.

Lemma finished_threads_stay_finished_witness :
  ppc (mkState MJoinConsumer Finished (Running CGet) (Queue.mk 0 [4]) []) = Finished /\
  cpc final = Finished.
Proof.
  split.
  - refine (proj1 (proj1 (finished_threads_stay_finished [Main; Consumer]
                            (mkState MStartConsumer Finished NotStarted (Queue.mk 0 [4]) [])
                            _ _ _) _));
      vm_compute; reflexivity.
  - refine (proj1 (proj2 (finished_threads_stay_finished [Main]
                            (mkState MJoinConsumer Finished Finished Queue.new ten_lines)
                            _ final _) _));
      vm_compute; reflexivity.
Defined.

(** Each move uses up one unit of [moves_left]. *)
Lemma step_moves_left (t : tid) (s s1 : state) (e : event) :
  thread_step t s = Some (e, s1) -> (moves_left s1 < moves_left s)%nat.
Proof.
  intros H. destruct s as [m p c q out]. unfold moves_left.
  destruct t; step_cases H; cbn [mpc ppc cpc queue main_left producer_left puts_left];
    repeat match goal with
           | E : (_ <? _) = true |- _ => apply Z.ltb_lt in E
           | E : (_ <? _) = false |- _ => apply Z.ltb_ge in E
           | E : Queue.put _ _ = Some _ |- _ =>
               apply put_items in E; destruct E as [E _]; rewrite E; clear E
           | E : Queue.get _ = Some _ |- _ =>
               apply get_items in E; destruct E as [E _]; rewrite E; clear E
           end;
    rewrite ?length_app; cbn [List.length];
    try match goal with
        | |- context [consumer_left ?c _] => is_var c; destruct c as [|[| |?]|]
        end;
    cbn [consumer_left negb]; unfold rounds_left in *; lia.
Qed.

Lemma exec_moves_left (sch : list tid) :
  forall s tr s',
    exec sch s = Some (tr, s') ->
    (List.length sch + moves_left s' <= moves_left s)%nat.
Proof.
  apply (exec_ind (fun s sch tr s' =>
           (List.length sch + moves_left s' <= moves_left s)%nat)).
  - intros s. simpl. lia.
  - intros s t e s1 sch0 tr s2 Hstep _ IH.
    apply step_moves_left in Hstep. simpl. lia.
Qed.

(** The consumer never comes to stand at its [get] before an empty
    queue. *)
Lemma step_get_ready (t : tid) (s s1 : state) (e : event) :
  thread_step t s = Some (e, s1) ->
  (cpc s = Running CGet -> Queue.items (queue s) <> []) ->
  cpc s1 = Running CGet -> Queue.items (queue s1) <> [].
Proof.
  intros H. destruct s as [m p c [mx its] out].
  destruct t; step_cases H; cbn [cpc queue Queue.items]; intros Hg Hc;
    try discriminate; try (now apply Hg);
    try match goal with
        | E : Queue.put _ _ = Some _ |- _ =>
            apply put_items in E; destruct E as [E _]; rewrite E; cbn [Queue.items];
            now destruct its
        end.
  destruct its; [discriminate|]. discriminate.
Qed.

Lemma exec_get_ready (sch : list tid) :
  forall s tr s',
    exec sch s = Some (tr, s') ->
    (cpc s = Running CGet -> Queue.items (queue s) <> []) ->
    cpc s' = Running CGet -> Queue.items (queue s') <> [].
Proof.
  apply (exec_ind (fun s sch tr s' =>
           (cpc s = Running CGet -> Queue.items (queue s) <> []) ->
           cpc s' = Running CGet -> Queue.items (queue s') <> [])).
  - intros s Hg. exact Hg.
  - intros s t e s1 sch0 tr s2 Hstep _ IH Hg.
    apply IH. eapply step_get_ready; eauto.
Qed.

Lemma halted_no_move (s : state) :
  halted s = true -> main s = None /\ producer s = None /\ consumer s = None.
Proof.
  unfold halted, enabled, all_tids, can_move. cbn [filter thread_step].
  destruct (main s), (producer s), (consumer s); try discriminate. tauto.
Qed.

(** With a queue that has no bound and no [get] pending on an empty queue,
    a state in which nothing can move is one in which the script is over. *)
Lemma halted_ended (s : state) :
  Queue.maxsize (queue s) <= 0 ->
  (cpc s = Running CGet -> Queue.items (queue s) <> []) ->
  halted s = true -> ended s = true.
Proof.
  intros Hmx Hg Hh. apply halted_no_move in Hh. destruct Hh as (Hm & Hp & Hc).
  destruct s as [m p c [mx its] out]. unfold main, producer, consumer, ended in *.
  cbn [mpc ppc cpc queue stdout Queue.items Queue.maxsize] in *.
  destruct p as [|[i|i|i]|].
  2: { destruct (i <? 5); discriminate. }
  2: { rewrite put_unbounded in Hp by exact Hmx. discriminate. }
  2: { discriminate. }
  all: destruct c as [|[| |x]|]; try discriminate.
  all: try (unfold Queue.get in Hc; cbn [Queue.items] in Hc;
            destruct its; [now destruct Hg | discriminate]).
  all: destruct m; try discriminate; reflexivity.
Qed.

(** From any state some schedule leads to a state in which nothing can
    move. *)
Lemma reach_halt (n : nat) :
  forall s, (moves_left s <= n)%nat ->
            exists rest tr s', exec rest s = Some (tr, s') /\ halted s' = true.
Proof.
  induction n as [|n IH]; intros s Hn.
  - destruct (halted s) eqn:Hh.
    + exists [], [], s. split; [reflexivity | exact Hh].
    + unfold halted in Hh. destruct (enabled s) as [|t l] eqn:E; [discriminate|].
      assert (Hin : In t (enabled s)) by (rewrite E; now left).
      apply can_move_enabled in Hin. unfold can_move in Hin.
      destruct (thread_step t s) as [[e s1]|] eqn:Es; [|discriminate].
      apply step_moves_left in Es. lia.
  - destruct (halted s) eqn:Hh.
    + exists [], [], s. split; [reflexivity | exact Hh].
    + unfold halted in Hh. destruct (enabled s) as [|t l] eqn:E; [discriminate|].
      assert (Hin : In t (enabled s)) by (rewrite E; now left).
      apply can_move_enabled in Hin. unfold can_move in Hin.
      destruct (thread_step t s) as [[e s1]|] eqn:Es; [|discriminate].
      pose proof (step_moves_left _ _ _ _ Es) as Hlt.
      destruct (IH s1) as (rest & tr & s' & Hex & Hh'); [lia|].
      exists (t :: rest), ((t, e) :: tr), s'. split; [|exact Hh'].
      simpl. now rewrite Es, Hex.
Qed.

(** X5. The script comes to its end from any state in which the queue has
    no bound and the consumer is not waiting at a [get] on an empty queue,
    however its threads are interleaved.  A feasible schedule from [s] has
    at most [moves_left s] moves; whenever nothing can move any more the
    script is over (the main thread at its end or raised, no worker
    running), so no thread is left waiting; and every feasible schedule can
    be carried on to such an end. *)
Theorem moves_bounded (sch : list tid) (s : state) (tr : trace) (s' : state)
  (H : exec sch s = Some (tr, s'))
  (Hmx : Queue.maxsize (queue s) <= 0)
  (Hget : cpc s = Running CGet -> Queue.items (queue s) <> []) :
  (List.length sch + moves_left s' <= moves_left s)%nat /\
  (halted s' = true -> ended s' = true) /\
  exists rest tr2 s2,
    exec (sch ++ rest) s = Some (tr ++ tr2, s2) /\
    halted s2 = true /\ ended s2 = true.
Proof.
  pose proof (exec_maxsize _ _ _ _ H) as Hmx'.
  pose proof (exec_get_ready _ _ _ _ H Hget) as Hget'.
  split; [eapply exec_moves_left; exact H|]. split.
  - apply halted_ended; [lia | exact Hget'].
  - destruct (reach_halt (moves_left s') s' (le_n _)) as (rest & tr2 & s2 & Hex & Hh).
    exists rest, tr2, s2. split; [rewrite exec_app, H, Hex; reflexivity|].
    split; [exact Hh|].
    apply halted_ended; [| |exact Hh].
    + rewrite (exec_maxsize _ _ _ _ Hex). lia.
    + eapply exec_get_ready; eauto.
Qed.

Lemma moves_bounded_witness :
  (List.length [Consumer; Producer; Consumer; Producer] +
   moves_left (mkState MJoinProducer (Running (PFor 4%Z)) (Running (CPrint 0%Z))
                 (Queue.mk 0%Z [1; 2; 3]%Z) ["Produced: 3"%string])
   <= moves_left (mkState MJoinProducer (Running (PPut 3%Z)) (Running CWhile)
                    (Queue.mk 0%Z [0; 1; 2]%Z) []))%nat.
Proof.
  refine (proj1 (moves_bounded [Consumer; Producer; Consumer; Producer]
           (mkState MJoinProducer (Running (PPut 3)) (Running CWhile)
              (Queue.mk 0 [0; 1; 2]) [])
           [(Consumer, EEmpty false); (Producer, EPut 3); (Consumer, EGet 0);
            (Producer, EPrint "Produced: 3"%string)]
           (mkState MJoinProducer (Running (PFor 4)) (Running (CPrint 0))
              (Queue.mk 0 [1; 2; 3]) ["Produced: 3"%string]) _ _ _)).
  - vm_compute; reflexivity.
  - vm_compute; discriminate.
  - vm_compute; discriminate.
Defined.

Lemma repeat_3_more {A : Type} (x : A) (n : nat) :
  repeat x (3 * S n + 1) = [x; x; x] ++ repeat x (3 * n + 1).
Proof. replace (3 * S n + 1)%nat with (S (S (S (3 * n + 1)))) by lia. reflexivity. Qed.





Lemma remaining_lt (i : Z) : i < 5 -> remaining i = i :: remaining (i + 1).
Proof.
  intros H. unfold remaining.
  replace (Z.to_nat (5 - i)) with (S (Z.to_nat (5 - (i + 1)))) by lia.
  cbn [seq map]. f_equal; [lia|].
  rewrite <- seq_shift, map_map. apply map_ext. intros k. lia.
Qed.

Lemma remaining_ge (i : Z) : 5 <= i -> remaining i = [].
Proof.
  intros H. unfold remaining. now replace (Z.to_nat (5 - i)) with O by lia.
Qed.

(** One round of the producer's loop on a queue without a bound. *)
Lemma produce_one (m : main_pc) (c : status consumer_pc) (mx i : Z)
  (its : list Z) (out : list string) :
  i < 5 -> mx <= 0 ->
  exec [Producer; Producer; Producer]
       (mkState m (Running (PFor i)) c (Queue.mk mx its) out) =
  Some (produce_moves i,
        mkState m (Running (PFor (i + 1))) c (Queue.mk mx (its ++ [i]))
                (out ++ [produced_line i])).
Proof.
  intros Hi Hmx. cbn [exec thread_step producer ppc].
  replace (i <? 5) with true by (symmetry; apply Z.ltb_lt; lia).
  cbn [exec thread_step producer ppc queue mpc cpc stdout].
  rewrite put_unbounded by exact Hmx. reflexivity.
Qed.

Lemma producer_fills_rounds (n : nat) :
  forall i s,
    rounds_left i = n ->
    ppc s = Running (PFor i) -> Queue.maxsize (queue s) <= 0 ->
    exec (repeat Producer (3 * n + 1)) s =
    Some (flat_map produce_moves (remaining i) ++ [(Producer, ENext None)],
          mkState (mpc s) Finished (cpc s)
                  (Queue.mk (Queue.maxsize (queue s))
                            (Queue.items (queue s) ++ remaining i))
                  (stdout s ++ map produced_line (remaining i))).
Proof.
  induction n as [|n IH]; intros i [m p c [mx its] out] Hn Hp Hmx;
    simpl in Hp, Hmx; subst p; unfold rounds_left in Hn.
  - rewrite remaining_ge by lia. cbn [repeat Nat.mul Nat.add exec thread_step producer ppc].
    replace (i <? 5) with false by (symmetry; apply Z.ltb_ge; lia).
    cbn. now rewrite !app_nil_r.
  - rewrite repeat_3_more, exec_app, produce_one by lia.
    rewrite (IH (i + 1))
      by first [reflexivity | unfold rounds_left; cbn [queue Queue.maxsize]; lia].
    rewrite (remaining_lt i) by lia.
    cbn [flat_map map mpc cpc stdout queue Queue.maxsize Queue.items].
    now rewrite <- !app_assoc.
Qed.

(** X7. Left alone on a queue without a bound, whatever the queue and
    standard output already hold, the producer standing at the head of its
    loop with the iterator at [i] puts the values [range(5)] still has to
    give at the tail of the queue, in order, appends their "Produced" lines
    to standard output and is finished, in three moves for each value and
    one more; nothing else changes. *)
Theorem producer_fills (i : Z) (s : state)
  (Hp : ppc s = Running (PFor i)) (Hmx : Queue.maxsize (queue s) <= 0) :
  exec (repeat Producer (3 * rounds_left i + 1)) s =
  Some (flat_map produce_moves (remaining i) ++ [(Producer, ENext None)],
        mkState (mpc s) Finished (cpc s)
                (Queue.mk (Queue.maxsize (queue s))
                          (Queue.items (queue s) ++ remaining i))
                (stdout s ++ map produced_line (remaining i))).
Proof. now apply producer_fills_rounds. Qed.

Lemma producer_fills_witness :
  exec (repeat Producer 16)
       (mkState MJoinProducer (Running (PFor 0)) (Running CGet)
          (Queue.mk (-1) [42]) ["x"%string]) =
  Some (flat_map produce_moves [0; 1; 2; 3; 4] ++ [(Producer, ENext None)],
        mkState MJoinProducer Finished (Running CGet)
                (Queue.mk (-1) ([42] ++ [0; 1; 2; 3; 4]))
                (["x"%string] ++ map produced_line [0; 1; 2; 3; 4])).
Proof.
  apply (producer_fills 0
           (mkState MJoinProducer (Running (PFor 0)) (Running CGet)
              (Queue.mk (-1) [42]) ["x"%string]));
    [vm_compute; reflexivity | vm_compute; discriminate].
Defined.



(** X9. The loop test guards the [get]: in any state, bounded queue or
    not, when the consumer's test sends it into the loop body its next move
    is there to make, needs no waiting and takes the value at the head of
    the queue. *)
Theorem loop_test_guards_get (s s1 : state) (e : event)
  (Hc : cpc s = Running CWhile) (Hstep : consumer s = Some (e, s1))
  (Hbody : cpc s1 = Running CGet) :
  exists x rest,
    Queue.items (queue s) = x :: rest /\
    consumer s1 =
    Some (EGet x,
          mkState (mpc s) (ppc s) (Running (CPrint x))
                  (Queue.mk (Queue.maxsize (queue s)) rest) (stdout s)).
Proof.
  destruct s as [m p c [mx its] out]. simpl in Hc. subst c.
  unfold consumer in Hstep. cbn [cpc queue mpc ppc stdout] in Hstep.
  inversion Hstep; subst; clear Hstep. cbn [cpc] in Hbody.
  destruct its as [|x rest]; [discriminate|].
  exists x, rest. split; reflexivity.
Qed.

Lemma loop_test_guards_get_witness :
  exists x rest,
    [5; 6] = x :: rest /\
    consumer (mkState MDone NotStarted (Running CGet) (Queue.mk 1 [5; 6]) []) =
    Some (EGet x,
          mkState MDone NotStarted (Running (CPrint x)) (Queue.mk 1 rest) []).
Proof.
  apply (loop_test_guards_get
           (mkState MDone NotStarted (Running CWhile) (Queue.mk 1 [5; 6]) [])
           (mkState MDone NotStarted (Running CGet) (Queue.mk 1 [5; 6]) [])
           (EEmpty false));
    vm_compute; reflexivity.
Defined.

Lemma to_int_proper (i : Z) : Z.to_int i <> Decimal.Pos Decimal.Nil /\
                              Z.to_int i <> Decimal.Neg Decimal.Nil.
Proof.
  destruct i as [|p|p]; simpl; split; intros E; try discriminate;
    inversion E as [E']; exact (DecimalPos.Unsigned.to_uint_nonnil p E').
Qed.

Lemma str_inj (i j : Z) : str i = str j -> i = j.
Proof.
  unfold str. intros E. apply DecimalZ.to_int_inj.
  destruct (to_int_proper i) as [Hi1 Hi2]. destruct (to_int_proper j) as [Hj1 Hj2].
  pose proof (NilZero.isi _ Hi1 Hi2) as Ei. pose proof (NilZero.isi _ Hj1 Hj2) as Ej.
  rewrite E in Ei. congruence.
Qed.

(** X10. A line of output tells which thread wrote it and which value it
    reports: two "Produced" lines, or two "Consumed" lines, are equal only
    for equal values, and no "Produced" line is a "Consumed" line. *)
Theorem lines_tell_values (i j : Z) :
  (produced_line i = produced_line j -> i = j) /\
  (consumed_line i = consumed_line j -> i = j) /\
  produced_line i <> consumed_line j.
Proof.
  unfold produced_line, consumed_line. split; [|split].
  - intros E. apply str_inj. cbn in E. now inversion E.
  - intros E. apply str_inj. cbn in E. now inversion E.
  - cbn. discriminate.
Qed.

Lemma lines_tell_values_witness : 3 = 3.
Proof.
  apply (proj1 (lines_tell_values 3 3)). vm_compute; reflexivity.
Defined.

(** X11. Nothing is lost from the queue and nothing made up, from whatever
    state and however the threads are interleaved: what the queue held
    followed by what was put is what was got followed by what the queue
    holds now, in order; and no move changes the bound of the queue. *)
Theorem queue_conservation (sch : list tid) (s : state) (tr : trace) (s' : state)
  (H : exec sch s = Some (tr, s')) :
  Queue.items (queue s) ++ puts tr = gets tr ++ Queue.items (queue s') /\
  Queue.maxsize (queue s') = Queue.maxsize (queue s).
Proof.
  split; [eapply exec_fifo | eapply exec_maxsize]; exact H.
Qed.

Lemma queue_conservation_witness :
  [7; 8] ++ puts [(Consumer, EGet 7); (Producer, EPut 3); (Consumer, EPrint "Consumed: 7"%string)]
  = gets [(Consumer, EGet 7); (Producer, EPut 3); (Consumer, EPrint "Consumed: 7"%string)]
    ++ [8; 3].
Proof.
  apply (queue_conservation [Consumer; Producer; Consumer]
           (mkState MJoinProducer (Running (PPut 3)) (Running CGet) (Queue.mk 0 [7; 8]) [])
           [(Consumer, EGet 7); (Producer, EPut 3); (Consumer, EPrint "Consumed: 7"%string)]
           (mkState MJoinProducer (Running (PPrint 3)) (Running CWhile)
              (Queue.mk 0 [8; 3]) ["Consumed: 7"%string])).
  vm_compute; reflexivity.
Defined.


